(** * Blob utilities for Fuel predicates: a shallow embedding

    The functions of [src/utils/blobUtils.ts] are written out as Rocq
    functions over byte lists, together with the properties the
    specification states about them.

    - a [Uint8Array] is a [list Byte.byte];
    - a JavaScript [bigint] is a [Z];
    - a function that may [throw] returns a [result];
    - the external hash primitive ([sha256] of the [fuels] package) is a
      section variable. *)

From Stdlib Require Import ZArith NArith List String Ascii Strings.Byte Bool Lia.
From stdpp Require Import base list.

Import ListNotations.
Local Open Scope Z_scope.

(** ** Thrown errors *)

Inductive exn : Type :=
| Error (msg : string)        (* [throw new Error(msg)] *)
| RangeError (msg : string).  (* raised by the runtime itself *)

Inductive result (A : Type) : Type :=
| Ok (a : A)
| Throw (e : exn).

Arguments Ok {A} a.
Arguments Throw {A} e.

(** [result] is the error monad; sequencing is written [x ← r; k]. *)
#[global] Instance result_ret : MRet result := fun _ a => Ok a.

#[global] Instance result_bind : MBind result := fun _ _ k r =>
  match r with
  | Ok a => k a
  | Throw e => Throw e
  end.

(** ** Typed arrays *)

Abbreviation Uint8Array := (list Byte.byte).

#[global] Instance byte_eq_decision : EqDecision Byte.byte := Byte.byte_eq_dec.

(** The relative index of [TypedArray.prototype.slice]: a negative
    argument counts from the end, and the result is clamped to
    [0 .. len]. *)
Definition relative_index (len k : Z) : Z :=
  if k <? 0 then Z.max (len + k) 0 else Z.min k len.

(** [arr.slice(start, end)]. *)
Definition slice (arr : Uint8Array) (start end_ : Z) : Uint8Array :=
  let len := Z.of_nat (length arr) in
  let k := relative_index len start in
  let final := relative_index len end_ in
  take (Z.to_nat (final - k)) (drop (Z.to_nat k) arr).

(** [arr.slice(start)]: an absent [end] stands for the length. *)
Definition slice_from (arr : Uint8Array) (start : Z) : Uint8Array :=
  slice arr start (Z.of_nat (length arr)).

(** ** The layout descriptor

    [abi.configurables] is a possibly absent array of entries; each entry
    carries the byte offset at which a configurable constant begins, a
    position in the image and so a natural number. *)

Record Configurable : Type := mkConfigurable {
  name : string;
  offset : N
}.

Record Abi : Type := mkAbi {
  configurables : option (list Configurable)
}.

(** [Math.min(x, ...xs)] on at least one argument. *)
Definition Math_min (x : N) (xs : list N) : N := fold_left N.min xs x.

Definition getConfigurablesSectionOffset (abi : Abi) : result N :=
  match configurables abi with
  | None | Some [] => Throw (Error "No configurables found in ABI")
  | Some (c :: cs) => Ok (Math_min (offset c) (map offset cs))
  end.

Record SplitBytecode : Type := mkSplit {
  codeSection : Uint8Array;
  configurablesSection : Uint8Array
}.

Definition splitPredicateBytecode (bytecode : Uint8Array) (abi : Abi)
  : result SplitBytecode :=
  configurablesOffset ← getConfigurablesSectionOffset abi;
  let codeSection := slice bytecode 0 (Z.of_N configurablesOffset) in
  let configurablesSection := slice_from bytecode (Z.of_N configurablesOffset) in
  Ok (mkSplit codeSection configurablesSection).

(** ** Hex encoding *)

Definition hexCharacters : string := "0123456789abcdef".

Definition hexDigit (d : N) : ascii :=
  match String.get (N.to_nat d) hexCharacters with
  | Some c => c
  | None => "0"%char
  end.

(** The digits of [n] in radix 16, most significant first, in front of
    [acc]; [fuel] bounds the number of digits. *)
Fixpoint toString16_digits (fuel : nat) (n : N) (acc : string) : string :=
  match fuel with
  | O => acc
  | S fuel' =>
      let acc' := String (hexDigit (n mod 16)) acc in
      if (n / 16 =? 0)%N then acc' else toString16_digits fuel' (n / 16) acc'
  end.

(** [n.toString(16)] on a non-negative integer. *)
Definition Number_toString16 (n : N) : string :=
  toString16_digits (S (N.size_nat n)) n EmptyString.

(** [s.padStart(targetLength, pad)] with a one-character [pad]. *)
Definition padStart (s : string) (targetLength : nat) (pad : ascii) : string :=
  (string_of_list_ascii (repeat pad (targetLength - String.length s)) ++ s)%string.

(** The callback [b => b.toString(16).padStart(2, '0')]. *)
Definition hexByte (b : Byte.byte) : string :=
  padStart (Number_toString16 (Byte.to_N b)) 2 "0".

(** ['0x' + Array.from(bytes).map(hexByte).join('')]. *)
Definition bytesToHex (bytes : Uint8Array) : string :=
  ("0x" ++ String.concat "" (map hexByte bytes))%string.

(** ** The blob identifier *)

Section BlobId.

(** [sha256] of the [fuels] package: from bytes to a hex string. *)
Variable sha256 : Uint8Array -> string.

Definition calculateBlobId (bytecode : Uint8Array) (abi : Abi) : result string :=
  parts ← splitPredicateBytecode bytecode abi;
  let hash := sha256 (codeSection parts) in
  Ok hash.

End BlobId.

(** ** The loader structure *)

Definition LOADER_INSTRUCTIONS_LENGTH : Z := 48.
Definition BLOB_ID_LENGTH : Z := 32.
Definition SECTION_LENGTH_SIZE : Z := 8.

Record LoaderComponents : Type := mkLoaderComponents {
  instructions : Uint8Array;
  blobId : Uint8Array;
  sectionLength : Z;
  loaderConfigurables : Uint8Array  (* the field [configurables] *)
}.

(** [base ** exponent] on bigints: a negative exponent is a [RangeError]. *)
Definition BigInt_pow (base exponent : Z) : result Z :=
  if exponent <? 0 then Throw (RangeError "Exponent must be non-negative")
  else Ok (base ^ exponent).

(** [arr.reduce(f, init)], the callback receiving the accumulator, the
    element and its index; [reduce_from] is the loop from index [i]. *)
Fixpoint reduce_from {A : Type} (f : A -> Byte.byte -> Z -> result A)
    (arr : Uint8Array) (i : Z) (acc : A) : result A :=
  match arr with
  | [] => Ok acc
  | b :: rest => acc' ← f acc b i; reduce_from f rest (i + 1) acc'
  end.

Definition reduce {A : Type} (f : A -> Byte.byte -> Z -> result A)
    (arr : Uint8Array) (init : A) : result A :=
  reduce_from f arr 0 init.

(** [BigInt(byte)]. *)
Definition BigInt_of_byte (b : Byte.byte) : Z := Z.of_N (Byte.to_N b).

(** The callback [(acc, byte, i) => acc + BigInt(byte) * (256n ** BigInt(7 - i))]. *)
Definition sectionLength_step (acc : Z) (b : Byte.byte) (i : Z) : result Z :=
  p ← BigInt_pow 256 (7 - i);
  Ok (acc + BigInt_of_byte b * p).

(** [null] is [None]. *)
Definition parseLoaderStructure (loaderBytecode : Uint8Array)
  : result (option LoaderComponents) :=
  let minLength := LOADER_INSTRUCTIONS_LENGTH + BLOB_ID_LENGTH + SECTION_LENGTH_SIZE in
  if Z.of_nat (length loaderBytecode) <? minLength then Ok None
  else
    let offset := 0 in
    let instructions := slice loaderBytecode offset (offset + LOADER_INSTRUCTIONS_LENGTH) in
    let offset := offset + LOADER_INSTRUCTIONS_LENGTH in
    let blobId := slice loaderBytecode offset (offset + BLOB_ID_LENGTH) in
    let offset := offset + BLOB_ID_LENGTH in
    let sectionLengthBytes := slice loaderBytecode offset (offset + SECTION_LENGTH_SIZE) in
    let offset := offset + SECTION_LENGTH_SIZE in
    sectionLength ← reduce sectionLength_step sectionLengthBytes 0;
    let configurables := slice_from loaderBytecode offset in
    Ok (Some (mkLoaderComponents instructions blobId sectionLength configurables)).

Section Verify.

Variable sha256 : Uint8Array -> string.

Definition verifyLoaderBlobId (fullBytecode : Uint8Array) (fullAbi : Abi)
    (loaderBytecode : Uint8Array) : result bool :=
  expectedBlobId ← calculateBlobId sha256 fullBytecode fullAbi;
  loaderComponents ← parseLoaderStructure loaderBytecode;
  match loaderComponents with
  | None => Ok false
  | Some components =>
      let embeddedBlobId :=
        ("0x" ++ String.concat "" (map hexByte (blobId components)))%string in
      Ok (String.eqb embeddedBlobId expectedBlobId)
  end.

End Verify.

(** ** Reference definitions *)

(** The layout has at least one entry. *)
Definition nonEmptyLayout (abi : Abi) : Prop :=
  match configurables abi with
  | Some (_ :: _) => True
  | _ => False
  end.

(** The value the specification gives to the [sectionLength] field: the
    sum of [bytes[i] * 256^(7 - i)] for [i] from 0 to 7. *)
Definition bigEndianSum (bytes : Uint8Array) : Z :=
  foldr Z.add 0
    (map (fun i => BigInt_of_byte (nth i bytes x00) * 256 ^ (7 - Z.of_nat i)) (seq 0 8)).

(** Reading back one hex digit, and the two digits of a byte; the inverse
    of [hexByte], used to show that the encoding loses nothing. *)
Fixpoint indexOf (c : ascii) (s : string) : N :=
  match s with
  | EmptyString => 0%N
  | String d rest => if Ascii.eqb d c then 0%N else N.succ (indexOf c rest)
  end.

Definition hexDigitValue (c : ascii) : N := indexOf c hexCharacters.

Definition unhexByte (s : string) : option Byte.byte :=
  match s with
  | String hi (String lo EmptyString) =>
      Byte.of_N (16 * hexDigitValue hi + hexDigitValue lo)
  | _ => None
  end.

(** The direct fixed-width big-endian read the specification asks to be
    equivalent to the [reduce] of [parseLoaderStructure]: shift the
    accumulator one byte to the left and put the next byte below it. *)
Definition readBigUInt64BE (bytes : Uint8Array) : Z :=
  fold_left (fun acc b => Z.lor (Z.shiftl acc 8) (BigInt_of_byte b)) bytes 0.

(** A value stored into a [Uint8Array] is taken modulo 256. *)
Definition byte_of_N (n : N) : Byte.byte :=
  match Byte.of_N (n mod 256) with
  | Some b => b
  | None => x00
  end.

(** Bit [i] of a byte, bit 7 being the most significant one. *)
Definition byte_testbit (b : Byte.byte) (i : N) : bool := N.testbit (Byte.to_N b) i.

(** Modelled from the spec: the signature normalizer ([toCompactSignature]
    of [src/utils/signatureUtils.ts], which the tests import and which is
    not among the sources). Section 4.4, step 2: the recovery indicator
    [v] becomes one bit, [v mod 2] after subtracting 27 when [v >= 27]. *)
Definition normalizeParity (v : N) : N :=
  ((if (27 <=? v)%N then v - 27 else v) mod 2)%N.

(** Modelled from the spec: section 4.4, step 3, on the first byte of [s],
    which holds the most significant bit: that bit becomes [parity], the
    seven bits below it are kept. *)
Definition setTopBit (b : Byte.byte) (parity : N) : Byte.byte :=
  byte_of_N (N.lor (N.land (Byte.to_N b) 127) (N.shiftl parity 7)).

(** Modelled from the spec: section 4.4, [toCompact]. A signature that is
    not exactly 65 bytes fails with [MalformedSignature]; otherwise the
    result is [r] followed by [s] with its top bit set to the parity. *)
Definition toCompact (signature : Uint8Array) : result Uint8Array :=
  if negb (Nat.eqb (length signature) 65)
  then Throw (Error "MalformedSignature")
  else
    let r := slice signature 0 32 in
    let s := slice signature 32 64 in
    let v := Byte.to_N (nth 64 signature x00) in
    let parity := normalizeParity v in
    let s' := match s with
              | [] => []
              | s0 :: rest => setTopBit s0 parity :: rest
              end in
    Ok (r ++ s').

(** A stand-in for the raw digest behind [sha256], used where the
    hypotheses on the hash are instantiated on concrete data: the first 32
    bytes of the input, zero-padded. *)
Definition prefixDigest (data : Uint8Array) : Uint8Array :=
  take 32 (data ++ repeat x00 32).

Definition prefixSha256 (data : Uint8Array) : string :=
  bytesToHex (prefixDigest data).

(** Sample data. *)
Definition sampleAbi : Abi :=
  mkAbi (Some [mkConfigurable "OWNER_ADDRESS" 6; mkConfigurable "LIMIT" 4]).

Definition sampleImage : Uint8Array :=
  [x01; x23; x45; x67; x89; xab; xcd; xef].

Definition sampleLoader : Uint8Array :=
  repeat x1a 48 ++ prefixDigest [x01; x23; x45; x67]
    ++ [x00; x00; x00; x00; x00; x00; x00; x04] ++ [x89; xab; xcd; xef].

Definition sampleSignature : Uint8Array :=
  repeat x11 32 ++ x7f :: repeat x22 31 ++ [x1c].

(** ** Decoding hex

    Strings are sequences of code units below 256. *)

(** [s.startsWith(p)]. *)
Definition startsWith (s p : string) : bool := String.prefix p s.

(** [s.slice(start, end)] with [0 <= start <= end]; the end is clamped to
    the length of [s]. *)
Definition String_slice (s : string) (start end_ : nat) : string :=
  substring start (end_ - start) s.

(** [s.slice(start)]. *)
Definition String_slice_from (s : string) (start : nat) : string :=
  String_slice s start (String.length s).

(** The white space [parseInt] skips, among the code units below 256:
    tab, line feed, vertical tab, form feed, carriage return, space and
    no-break space. *)
Definition isStrWhiteSpaceChar (c : ascii) : bool :=
  let n := N_of_ascii c in
  ((n =? 9) || (n =? 10) || (n =? 11) || (n =? 12) || (n =? 13)
   || (n =? 32) || (n =? 160))%N.

Fixpoint trimStart (s : string) : string :=
  match s with
  | EmptyString => EmptyString
  | String c rest => if isStrWhiteSpaceChar c then trimStart rest else s
  end.

(** The value of a digit or letter: [0-9] are 0 to 9, [a-z] and [A-Z] are
    10 to 35. *)
Definition digitValue (c : ascii) : option N :=
  let n := N_of_ascii c in
  if ((48 <=? n) && (n <=? 57))%N then Some (n - 48)%N
  else if ((97 <=? n) && (n <=? 122))%N then Some (n - 87)%N
  else if ((65 <=? n) && (n <=? 90))%N then Some (n - 55)%N
  else None.

(** A digit of the given radix. *)
Definition radixDigit (radix : N) (c : ascii) : option N :=
  match digitValue c with
  | Some d => if (d <? radix)%N then Some d else None
  | None => None
  end.

(** The number written by the longest prefix of [s] made of digits of the
    radix; [acc] is the value read so far, [None] before the first digit. *)
Fixpoint parseDigits (radix : N) (s : string) (acc : option N) : option N :=
  match s with
  | EmptyString => acc
  | String c rest =>
      match radixDigit radix c with
      | Some d => parseDigits radix rest (Some (default 0%N acc * radix + d)%N)
      | None => acc
      end
  end.

(** [parseInt(s, 16)], [None] standing for [NaN]: leading white space is
    skipped, then a sign, then a [0x] or [0X] prefix, and the digits that
    follow are read up to the first character that is not a hex digit. The
    value is exact below [2^53], so on the two-character strings
    [hexToBytes] passes. *)
Definition parseInt16 (s : string) : option Z :=
  let s1 := trimStart s in
  let '(sign, s2) :=
    match s1 with
    | String "-"%char rest => (-1, rest)
    | String "+"%char rest => (1, rest)
    | _ => (1, s1)
    end in
  let s3 := if startsWith s2 "0x" || startsWith s2 "0X"
            then String_slice_from s2 2 else s2 in
  option_map (fun n => sign * Z.of_N n) (parseDigits 16 s3 None).

(** The conversion of a number stored into a [Uint8Array]: [NaN] becomes
    0, an integer is taken modulo 256. *)
Definition ToUint8 (v : option Z) : Byte.byte :=
  match v with
  | None => x00
  | Some z => byte_of_N (Z.to_N (z mod 256))
  end.

(** The loop [for (let i = 0; i < cleanHex.length; i += 2)] of
    [hexToBytes], from index [i] on. A store past the end of a typed array
    is dropped, as the list insert is. The loop runs at most
    [cleanHex.length] times, which [hexToBytes] passes as [fuel]. *)
Fixpoint hexToBytes_loop (fuel : nat) (cleanHex : string) (i : nat)
    (bytes : Uint8Array) : Uint8Array :=
  match fuel with
  | O => bytes
  | S fuel' =>
      if (i <? String.length cleanHex)%nat
      then hexToBytes_loop fuel' cleanHex (i + 2)
             (<[(i / 2)%nat := ToUint8 (parseInt16 (String_slice cleanHex i (i + 2)))]> bytes)
      else bytes
  end.

(** [new Uint8Array(cleanHex.length / 2)] has the integer part of the
    quotient as its length and holds zeros. *)
Definition hexToBytes (hex : string) : Uint8Array :=
  let cleanHex := if startsWith hex "0x" then String_slice_from hex 2 else hex in
  let bytes := replicate (String.length cleanHex / 2) x00 in
  hexToBytes_loop (String.length cleanHex) cleanHex 0 bytes.

(** The pairs of characters of a string decoded one after the other, a
    last unpaired character being left out: what the loop of [hexToBytes]
    is shown to compute. *)
Fixpoint decodePairs (s : string) : Uint8Array :=
  match s with
  | String a (String b rest) =>
      ToUint8 (parseInt16 (String a (String b EmptyString))) :: decodePairs rest
  | _ => []
  end.

(** [s.toUpperCase()] on the letters [a-z]. *)
Definition toUpperCase_char (c : ascii) : ascii :=
  let n := N_of_ascii c in
  if ((97 <=? n) && (n <=? 122))%N then ascii_of_N (n - 32) else c.

Fixpoint toUpperCase (s : string) : string :=
  match s with
  | EmptyString => EmptyString
  | String c rest => String (toUpperCase_char c) (toUpperCase rest)
  end.

(** * Properties *)

(** ** [slice] *)

Lemma relative_index_of_nat (len k : nat) :
  relative_index (Z.of_nat len) (Z.of_nat k) = Z.of_nat (Nat.min k len).
Proof.
  unfold relative_index.
  destruct (Z.ltb_spec (Z.of_nat k) 0); lia.
Qed.

(** On natural bounds, [slice] keeps [b - a] bytes after dropping [a]. *)
Lemma slice_of_nat (arr : Uint8Array) (a b : nat) :
  slice arr (Z.of_nat a) (Z.of_nat b) = take (b - a) (drop a arr).
Proof.
  unfold slice. rewrite !relative_index_of_nat.
  destruct (Nat.le_gt_cases (length arr) a) as [Hge | Hlt].
  - rewrite (drop_ge arr a) by lia.
    rewrite (drop_ge arr) by lia.
    by rewrite !take_nil.
  - replace (Z.to_nat (Z.of_nat (Nat.min a (length arr)))) with a by lia.
    destruct (Nat.le_gt_cases b (length arr)) as [Hb | Hb].
    + f_equal. lia.
    + rewrite !take_ge; try done; rewrite length_drop; lia.
Qed.

Lemma slice_from_of_nat (arr : Uint8Array) (a : nat) :
  slice_from arr (Z.of_nat a) = drop a arr.
Proof.
  unfold slice_from. rewrite slice_of_nat.
  apply take_ge. rewrite length_drop. lia.
Qed.

Lemma slice_prefix (arr : Uint8Array) (n : N) :
  slice arr 0 (Z.of_N n) = take (N.to_nat n) arr.
Proof.
  replace (Z.of_N n) with (Z.of_nat (N.to_nat n)) by lia.
  change 0 with (Z.of_nat 0). rewrite slice_of_nat.
  by rewrite Nat.sub_0_r.
Qed.

Lemma slice_suffix (arr : Uint8Array) (n : N) :
  slice_from arr (Z.of_N n) = drop (N.to_nat n) arr.
Proof.
  replace (Z.of_N n) with (Z.of_nat (N.to_nat n)) by lia.
  apply slice_from_of_nat.
Qed.

(** ** [getConfigurablesSectionOffset] and [splitPredicateBytecode] *)

Lemma Math_min_le_head (xs : list N) (x : N) : (Math_min x xs <= x)%N.
Proof.
  revert x. induction xs as [| y ys IH]; intros x; cbn.
  - lia.
  - specialize (IH (N.min x y)). unfold Math_min in IH. lia.
Qed.

Lemma Math_min_lower_bound (xs : list N) (x : N) :
  Forall (N.le (Math_min x xs)) (x :: xs).
Proof.
  revert x. induction xs as [| y ys IH]; intros x.
  - repeat constructor. cbn. lia.
  - specialize (IH (N.min x y)).
    change (Math_min x (y :: ys)) with (Math_min (N.min x y) ys).
    inversion IH as [| ? ? Hhd Htl]; subst.
    repeat constructor; try assumption; lia.
Qed.

Lemma Math_min_attained (xs : list N) (x : N) : In (Math_min x xs) (x :: xs).
Proof.
  revert x. induction xs as [| y ys IH]; intros x.
  - by left.
  - change (Math_min x (y :: ys)) with (Math_min (N.min x y) ys).
    destruct (IH (N.min x y)) as [Hhd | Htl].
    + rewrite <- Hhd.
      destruct (N.min_spec x y) as [[_ ->] | [_ ->]]; cbn; auto.
    + right. by right.
Qed.

Lemma nonEmptyLayout_offset (abi : Abi) :
  nonEmptyLayout abi -> exists off, getConfigurablesSectionOffset abi = Ok off.
Proof.
  unfold nonEmptyLayout, getConfigurablesSectionOffset.
  destruct (configurables abi) as [[| c cs] |]; try done. eauto.
Qed.

Lemma splitPredicateBytecode_eq (bytecode : Uint8Array) (abi : Abi) (off : N) :
  getConfigurablesSectionOffset abi = Ok off ->
  splitPredicateBytecode bytecode abi
  = Ok (mkSplit (take (N.to_nat off) bytecode) (drop (N.to_nat off) bytecode)).
Proof.
  intros Hoff. unfold splitPredicateBytecode. rewrite Hoff. cbn.
  by rewrite slice_prefix, slice_suffix.
Qed.

(** C8. [getConfigurablesSectionOffset] throws its "no configurables"
    error when the entry list of the layout is absent or empty; on a
    layout with at least one entry it returns an offset that occurs among
    the entries and is at most the offset of every entry, that is, the
    minimum offset. *)
Theorem getConfigurablesSectionOffset_spec (abi : Abi) :
  match configurables abi with
  | None | Some [] =>
      getConfigurablesSectionOffset abi
      = Throw (Error "No configurables found in ABI")
  | Some entries =>
      exists m, getConfigurablesSectionOffset abi = Ok m
                /\ In m (map offset entries)
                /\ Forall (N.le m) (map offset entries)
  end.
Proof.
  unfold getConfigurablesSectionOffset.
  destruct (configurables abi) as [[| c cs] |]; try reflexivity.
  exists (Math_min (offset c) (map offset cs)). split; [reflexivity |].
  split; [apply Math_min_attained | apply Math_min_lower_bound].
Qed.

(** An offset beyond the end of the image is not an error: the image
    [01 23 45 67 89 ab cd ef] has 8 bytes, the only entry of the layout is
    at offset 12, and [splitPredicateBytecode] returns normally. *)
Lemma split_past_the_end_returns :
  getConfigurablesSectionOffset (mkAbi (Some [mkConfigurable "LIMIT" 12])) = Ok 12%N
  /\ Z.of_nat (length sampleImage) < Z.of_N 12
  /\ splitPredicateBytecode sampleImage (mkAbi (Some [mkConfigurable "LIMIT" 12]))
     = Ok (mkSplit sampleImage []).
Proof. repeat split. Qed.

(** C7, as the code has it. When the minimum offset of the layout is
    strictly greater than the length of the image, [splitPredicateBytecode]
    returns normally: the code section is the whole image and the
    configurables section is empty. *)
Theorem splitPredicateBytecode_offset_beyond_length
    (bytecode : Uint8Array) (abi : Abi) (off : N) :
  getConfigurablesSectionOffset abi = Ok off ->
  Z.of_nat (length bytecode) < Z.of_N off ->
  splitPredicateBytecode bytecode abi = Ok (mkSplit bytecode []).
Proof.
  intros Hoff Hlen.
  rewrite (splitPredicateBytecode_eq _ _ _ Hoff).
  rewrite take_ge by lia. rewrite drop_ge by lia. reflexivity.
Qed.

Lemma splitPredicateBytecode_offset_beyond_length_witness :
  splitPredicateBytecode [x01; x02; x03] (mkAbi (Some [mkConfigurable "A" 7; mkConfigurable "B" 5]))
  = Ok (mkSplit [x01; x02; x03] []).
Proof.
  apply (splitPredicateBytecode_offset_beyond_length
           [x01; x02; x03]
           (mkAbi (Some [mkConfigurable "A" 7; mkConfigurable "B" 5])) 5).
  - reflexivity.
  - simpl. lia.
Defined.

(** C10. On a layout with at least one entry [splitPredicateBytecode]
    returns without error for every image, whatever the minimum offset,
    and the code section followed by the configurables section is the
    image again; when the offset exceeds the length of the image the code
    section is the whole image and the configurables section is empty. *)
Theorem splitPredicateBytecode_concat
    (bytecode : Uint8Array) (abi : Abi) (off : N) :
  getConfigurablesSectionOffset abi = Ok off ->
  exists parts,
    splitPredicateBytecode bytecode abi = Ok parts
    /\ codeSection parts ++ configurablesSection parts = bytecode
    /\ (Z.of_nat (length bytecode) < Z.of_N off ->
        codeSection parts = bytecode /\ configurablesSection parts = []).
Proof.
  intros Hoff. eexists. split; [apply (splitPredicateBytecode_eq _ _ _ Hoff) |].
  cbn. split; [apply take_drop |].
  intros Hlen. split; [apply take_ge | apply drop_ge]; lia.
Qed.

Lemma splitPredicateBytecode_concat_witness :
  exists parts,
    splitPredicateBytecode sampleImage sampleAbi = Ok parts
    /\ codeSection parts ++ configurablesSection parts = sampleImage
    /\ (Z.of_nat (length sampleImage) < Z.of_N 4 ->
        codeSection parts = sampleImage /\ configurablesSection parts = []).
Proof.
  apply (splitPredicateBytecode_concat sampleImage sampleAbi 4).
  reflexivity.
Defined.

(** ** [calculateBlobId] *)

Section BlobIdProperties.

Variable sha256 : Uint8Array -> string.

Lemma calculateBlobId_eq (bytecode : Uint8Array) (abi : Abi) (off : N) :
  getConfigurablesSectionOffset abi = Ok off ->
  calculateBlobId sha256 bytecode abi = Ok (sha256 (take (N.to_nat off) bytecode)).
Proof.
  intros Hoff. unfold calculateBlobId.
  by rewrite (splitPredicateBytecode_eq _ _ _ Hoff).
Qed.

(** C3. On a layout with at least one entry, two images that carry the
    same bytes at every position below the minimum offset of the layout
    get the same blob identifier from [calculateBlobId], whatever lies at
    and after that offset. *)
Theorem calculateBlobId_section_independence
    (abi : Abi) (off : N) (image1 image2 : Uint8Array) :
  getConfigurablesSectionOffset abi = Ok off ->
  (forall i : nat, (N.of_nat i < off)%N -> image1 !! i = image2 !! i) ->
  exists id,
    calculateBlobId sha256 image1 abi = Ok id
    /\ calculateBlobId sha256 image2 abi = Ok id.
Proof.
  intros Hoff Hsame.
  exists (sha256 (take (N.to_nat off) image1)).
  rewrite !(calculateBlobId_eq _ _ _ Hoff). split; [reflexivity |].
  do 2 f_equal. apply list_eq. intros i.
  destruct (Nat.lt_ge_cases i (N.to_nat off)) as [Hlt | Hge].
  - rewrite !lookup_take_lt by done. symmetry. apply Hsame. lia.
  - rewrite !lookup_take_ge by done. reflexivity.
Qed.

End BlobIdProperties.

Lemma calculateBlobId_section_independence_witness :
  exists id,
    calculateBlobId prefixSha256 sampleImage sampleAbi = Ok id
    /\ calculateBlobId prefixSha256 [x01; x23; x45; x67; xff] sampleAbi = Ok id.
Proof.
  apply (calculateBlobId_section_independence prefixSha256 sampleAbi 4).
  - reflexivity.
  - intros i Hi.
    destruct i as [| [| [| [| i]]]]; try reflexivity. lia.
Defined.

(** ** [parseLoaderStructure] *)

Lemma BigInt_of_byte_range (b : Byte.byte) : 0 <= BigInt_of_byte b < 256.
Proof.
  unfold BigInt_of_byte. pose proof (Byte.to_N_bounded b). lia.
Qed.

Lemma slice_nonneg (arr : Uint8Array) (a b : Z) :
  0 <= a -> 0 <= b ->
  slice arr a b = take (Z.to_nat b - Z.to_nat a) (drop (Z.to_nat a) arr).
Proof.
  intros Ha Hb.
  rewrite <- (Z2Nat.id a) at 1 by done.
  rewrite <- (Z2Nat.id b) at 1 by done.
  apply slice_of_nat.
Qed.

Lemma list_of_length_8 (l : Uint8Array) :
  length l = 8%nat ->
  exists b0 b1 b2 b3 b4 b5 b6 b7, l = [b0; b1; b2; b3; b4; b5; b6; b7].
Proof.
  intros Hlen.
  do 8 (destruct l as [| ? l]; [discriminate Hlen |]).
  destruct l; [| discriminate Hlen].
  by repeat eexists.
Qed.

(** On eight bytes the [reduce] never reaches a negative exponent. *)
Lemma reduce_sectionLength_8 (b0 b1 b2 b3 b4 b5 b6 b7 : Byte.byte) :
  reduce sectionLength_step [b0; b1; b2; b3; b4; b5; b6; b7] 0
  = Ok (bigEndianSum [b0; b1; b2; b3; b4; b5; b6; b7]).
Proof.
  cbv [reduce reduce_from sectionLength_step BigInt_pow mbind result_bind].
  cbn. f_equal. lia.
Qed.

Lemma lor_shiftl_byte (acc : Z) (b : Byte.byte) :
  Z.lor (Z.shiftl acc 8) (BigInt_of_byte b) = acc * 256 + BigInt_of_byte b.
Proof.
  pose proof (BigInt_of_byte_range b) as Hb.
  rewrite <- Z.lxor_lor, <- Z.add_nocarry_lxor.
  - rewrite Z.shiftl_mul_pow2 by lia. reflexivity.
  - apply Z.bits_inj'. intros n Hn.
    rewrite Z.land_spec, Z.bits_0.
    destruct (Z.lt_ge_cases n 8) as [Hlt | Hge].
    + rewrite Z.shiftl_spec_low by done. reflexivity.
    + replace (BigInt_of_byte b) with (BigInt_of_byte b mod 2 ^ 8)
        by (apply Z.mod_small; lia).
      rewrite Z.mod_pow2_bits_high by lia. apply andb_false_r.
  - apply Z.bits_inj'. intros n Hn.
    rewrite Z.land_spec, Z.bits_0.
    destruct (Z.lt_ge_cases n 8) as [Hlt | Hge].
    + rewrite Z.shiftl_spec_low by done. reflexivity.
    + replace (BigInt_of_byte b) with (BigInt_of_byte b mod 2 ^ 8)
        by (apply Z.mod_small; lia).
      rewrite Z.mod_pow2_bits_high by lia. apply andb_false_r.
Qed.

(** The repeated multiplication of the source and the shift-and-or read
    give the same integer on eight bytes. *)
Lemma readBigUInt64BE_8 (b0 b1 b2 b3 b4 b5 b6 b7 : Byte.byte) :
  readBigUInt64BE [b0; b1; b2; b3; b4; b5; b6; b7]
  = bigEndianSum [b0; b1; b2; b3; b4; b5; b6; b7].
Proof.
  unfold readBigUInt64BE. cbn [fold_left].
  rewrite !lor_shiftl_byte. unfold bigEndianSum. cbn. lia.
Qed.

Lemma bigEndianSum_range (bytes : Uint8Array) : 0 <= bigEndianSum bytes < 2 ^ 64.
Proof.
  unfold bigEndianSum. cbn.
  pose proof (BigInt_of_byte_range (nth 0 bytes x00)).
  pose proof (BigInt_of_byte_range (nth 1 bytes x00)).
  pose proof (BigInt_of_byte_range (nth 2 bytes x00)).
  pose proof (BigInt_of_byte_range (nth 3 bytes x00)).
  pose proof (BigInt_of_byte_range (nth 4 bytes x00)).
  pose proof (BigInt_of_byte_range (nth 5 bytes x00)).
  pose proof (BigInt_of_byte_range (nth 6 bytes x00)).
  pose proof (BigInt_of_byte_range (nth 7 bytes x00)).
  lia.
Qed.

(** The whole of [parseLoaderStructure] on an image of at least 88 bytes. *)
Lemma parseLoaderStructure_eq (loader : Uint8Array) :
  (88 <= length loader)%nat ->
  parseLoaderStructure loader
  = Ok (Some (mkLoaderComponents
                (take 48 loader)
                (take 32 (drop 48 loader))
                (bigEndianSum (take 8 (drop 80 loader)))
                (drop 88 loader))).
Proof.
  intros Hlen. unfold parseLoaderStructure.
  unfold LOADER_INSTRUCTIONS_LENGTH, BLOB_ID_LENGTH, SECTION_LENGTH_SIZE.
  destruct (Z.ltb_spec (Z.of_nat (length loader)) (48 + 32 + 8)) as [Hlt | _]; [lia |].
  rewrite !slice_nonneg by lia.
  change (slice_from loader (0 + 48 + 32 + 8))
    with (slice_from loader (Z.of_nat 88)).
  rewrite slice_from_of_nat.
  change (take (Z.to_nat (0 + 48) - Z.to_nat 0) (drop (Z.to_nat 0) loader))
    with (take 48 loader).
  change (take (Z.to_nat (0 + 48 + 32) - Z.to_nat (0 + 48)) (drop (Z.to_nat (0 + 48)) loader))
    with (take 32 (drop 48 loader)).
  change (take (Z.to_nat (0 + 48 + 32 + 8) - Z.to_nat (0 + 48 + 32))
            (drop (Z.to_nat (0 + 48 + 32)) loader))
    with (take 8 (drop 80 loader)).
  destruct (list_of_length_8 (take 8 (drop 80 loader)))
    as (b0 & b1 & b2 & b3 & b4 & b5 & b6 & b7 & Hbytes).
  { rewrite length_take, length_drop. lia. }
  rewrite Hbytes, reduce_sectionLength_8. reflexivity.
Qed.

Lemma parseLoaderStructure_short (loader : Uint8Array) :
  (length loader < 88)%nat -> parseLoaderStructure loader = Ok None.
Proof.
  intros Hlen. unfold parseLoaderStructure.
  unfold LOADER_INSTRUCTIONS_LENGTH, BLOB_ID_LENGTH, SECTION_LENGTH_SIZE.
  destruct (Z.ltb_spec (Z.of_nat (length loader)) (48 + 32 + 8)) as [_ | Hge]; [done | lia].
Qed.

(** C4. On a byte sequence shorter than 88 bytes [parseLoaderStructure]
    returns [null] and raises nothing; on a byte sequence of at least 88
    bytes it returns a decomposition, never [null]. *)
Theorem parseLoaderStructure_null_iff_short (loader : Uint8Array) :
  ((length loader < 88)%nat -> parseLoaderStructure loader = Ok None)
  /\ ((88 <= length loader)%nat ->
      exists components, parseLoaderStructure loader = Ok (Some components)).
Proof.
  split.
  - apply parseLoaderStructure_short.
  - intros Hlen. rewrite parseLoaderStructure_eq by done. eauto.
Qed.

Lemma parseLoaderStructure_null_iff_short_witness :
  parseLoaderStructure sampleImage = Ok None
  /\ exists components, parseLoaderStructure sampleLoader = Ok (Some components).
Proof.
  split.
  - apply (proj1 (parseLoaderStructure_null_iff_short sampleImage)).
    simpl. lia.
  - apply (proj2 (parseLoaderStructure_null_iff_short sampleLoader)).
    simpl. lia.
Defined.

(** C5. On a loader of at least 88 bytes [parseLoaderStructure] returns
    the bytes [0, 48) as [instructions], the bytes [48, 80) as [blobId],
    and as [sectionLength] the big-endian unsigned 64-bit value of the
    bytes [80, 88): the sum of [byte[80 + i] * 256^(7 - i)], which is what
    a direct shift-and-or read of these eight bytes gives, and lies below
    [2^64]. Consequently, when the loader is the concatenation of 48
    instruction bytes, a 32-byte identifier, 8 length bytes and the
    configurables, the parsed [blobId] hex-encodes to the encoding of that
    identifier. *)
Theorem parseLoaderStructure_fields (loader : Uint8Array) :
  (88 <= length loader)%nat ->
  exists components,
    parseLoaderStructure loader = Ok (Some components)
    /\ instructions components = take 48 loader
    /\ blobId components = take 32 (drop 48 loader)
    /\ sectionLength components = bigEndianSum (take 8 (drop 80 loader))
    /\ sectionLength components = readBigUInt64BE (take 8 (drop 80 loader))
    /\ 0 <= sectionLength components < 2 ^ 64
    /\ (forall instr id lengthBytes config : Uint8Array,
          loader = instr ++ id ++ lengthBytes ++ config ->
          length instr = 48%nat -> length id = 32%nat ->
          length lengthBytes = 8%nat ->
          blobId components = id
          /\ bytesToHex (blobId components) = bytesToHex id).
Proof.
  intros Hlen. eexists. split; [apply parseLoaderStructure_eq; done |].
  cbn [instructions blobId sectionLength].
  repeat split; try apply bigEndianSum_range.
  - destruct (list_of_length_8 (take 8 (drop 80 loader)))
      as (b0 & b1 & b2 & b3 & b4 & b5 & b6 & b7 & Hbytes).
    { rewrite length_take, length_drop. lia. }
    rewrite Hbytes. symmetry. apply readBigUInt64BE_8.
  - subst loader. rewrite drop_app_length' by done.
    by rewrite take_app_length'.
  - subst loader. rewrite drop_app_length' by done.
    by rewrite take_app_length'.
Qed.

Lemma parseLoaderStructure_fields_witness :
  exists components,
    parseLoaderStructure sampleLoader = Ok (Some components)
    /\ instructions components = take 48 sampleLoader
    /\ blobId components = take 32 (drop 48 sampleLoader)
    /\ sectionLength components = bigEndianSum (take 8 (drop 80 sampleLoader))
    /\ sectionLength components = readBigUInt64BE (take 8 (drop 80 sampleLoader))
    /\ 0 <= sectionLength components < 2 ^ 64
    /\ (forall instr id lengthBytes config : Uint8Array,
          sampleLoader = instr ++ id ++ lengthBytes ++ config ->
          length instr = 48%nat -> length id = 32%nat ->
          length lengthBytes = 8%nat ->
          blobId components = id
          /\ bytesToHex (blobId components) = bytesToHex id).
Proof.
  apply (parseLoaderStructure_fields sampleLoader).
  simpl. lia.
Defined.

(** The [sectionLength] field does not bound the [configurables]
    component: in this 92-byte loader the length field reads 0 and the
    component has 4 bytes. *)
Lemma loader_configurables_exceed_sectionLength :
  exists components,
    parseLoaderStructure
      (repeat x1a 48 ++ repeat xff 32 ++ repeat x00 8 ++ [x89; xab; xcd; xef])
    = Ok (Some components)
    /\ sectionLength components = 0
    /\ loaderConfigurables components = [x89; xab; xcd; xef]
    /\ Z.of_nat (length (loaderConfigurables components)) <> sectionLength components.
Proof.
  eexists. split; [vm_compute; reflexivity |].
  cbn. repeat split. lia.
Qed.

(** C6, as the code has it. On a loader of at least 88 bytes the
    [configurables] component is every byte from offset 88 to the end of
    the loader, so it has [length - 88] bytes; the decoded [sectionLength]
    is returned beside it and takes no part in cutting it. *)
Theorem parseLoaderStructure_configurables (loader : Uint8Array) :
  (88 <= length loader)%nat ->
  exists components,
    parseLoaderStructure loader = Ok (Some components)
    /\ loaderConfigurables components = drop 88 loader
    /\ length (loaderConfigurables components) = (length loader - 88)%nat.
Proof.
  intros Hlen. eexists. split; [apply parseLoaderStructure_eq; done |].
  cbn [loaderConfigurables]. split; [reflexivity | apply length_drop].
Qed.

Lemma parseLoaderStructure_configurables_witness :
  exists components,
    parseLoaderStructure sampleLoader = Ok (Some components)
    /\ loaderConfigurables components = drop 88 sampleLoader
    /\ length (loaderConfigurables components) = (length sampleLoader - 88)%nat.
Proof.
  apply (parseLoaderStructure_configurables sampleLoader).
  simpl. lia.
Defined.

(** ** Hex encoding *)

Lemma unhexByte_hexByte (b : Byte.byte) : unhexByte (hexByte b) = Some b.
Proof. destruct b; reflexivity. Qed.

(** On a byte, [toString(16)] followed by [padStart] gives the digit of the
    high half and the digit of the low half. *)
Lemma hexByte_digits (b : Byte.byte) :
  hexByte b
  = String (hexDigit (Byte.to_N b / 16)) (String (hexDigit (Byte.to_N b mod 16)) EmptyString).
Proof. destruct b; reflexivity. Qed.

Lemma hexByte_inj (a b : Byte.byte) : hexByte a = hexByte b -> a = b.
Proof.
  intros Heq.
  pose proof (unhexByte_hexByte a) as Ha.
  rewrite Heq, unhexByte_hexByte in Ha. congruence.
Qed.

(** Every byte is written with exactly two characters. *)
Lemma hexByte_two_chars (b : Byte.byte) :
  exists hi lo, hexByte b = String hi (String lo EmptyString).
Proof.
  pose proof (unhexByte_hexByte b) as Hb.
  unfold unhexByte in Hb.
  destruct (hexByte b) as [| hi [| lo [| ? ?]]]; try discriminate. eauto.
Qed.

Lemma concat_empty_cons (x : string) (xs : list string) :
  String.concat "" (x :: xs) = (x ++ String.concat "" xs)%string.
Proof.
  destruct xs as [| y ys]; cbn [String.concat].
  - clear. induction x as [| c x IH]; cbn; [reflexivity | by rewrite <- IH].
  - reflexivity.
Qed.

Lemma concat_hexByte_inj (l1 l2 : Uint8Array) :
  String.concat "" (map hexByte l1) = String.concat "" (map hexByte l2) ->
  l1 = l2.
Proof.
  revert l2. induction l1 as [| a l1 IH]; intros [| b l2] Heq;
    try reflexivity; cbn [map] in Heq; rewrite ?concat_empty_cons in Heq.
  - destruct (hexByte_two_chars b) as (hi & lo & Hb).
    rewrite Hb in Heq. discriminate Heq.
  - destruct (hexByte_two_chars a) as (hi & lo & Ha).
    rewrite Ha in Heq. discriminate Heq.
  - destruct (hexByte_two_chars a) as (hi & lo & Ha).
    destruct (hexByte_two_chars b) as (hi' & lo' & Hb).
    rewrite Ha, Hb in Heq. cbn in Heq.
    injection Heq as Hhi Hlo Hrest.
    f_equal.
    + apply hexByte_inj. congruence.
    + by apply IH.
Qed.

(** Two byte sequences with the same hex string are the same sequence. *)
Lemma bytesToHex_inj (l1 l2 : Uint8Array) : bytesToHex l1 = bytesToHex l2 -> l1 = l2.
Proof.
  unfold bytesToHex. intros Heq. cbn in Heq.
  injection Heq as Heq. by apply concat_hexByte_inj.
Qed.

(** ** [verifyLoaderBlobId] *)

Section VerifyProperties.

(** [sha256] returns the hex string of a raw digest, in the encoding of
    [bytesToHex]: [0x] followed by two lowercase digits per byte. *)
Variable sha256 : Uint8Array -> string.
Variable digest : Uint8Array -> Uint8Array.
Hypothesis sha256_hex : forall data, sha256 data = bytesToHex (digest data).

(** The value of [verifyLoaderBlobId] on a layout with entries. *)
Lemma verifyLoaderBlobId_eq (full : Uint8Array) (abi : Abi) (off : N)
    (loader : Uint8Array) :
  getConfigurablesSectionOffset abi = Ok off ->
  verifyLoaderBlobId sha256 full abi loader
  = Ok (bool_decide ((88 <= length loader)%nat
                     /\ take 32 (drop 48 loader) = digest (take (N.to_nat off) full))).
Proof.
  intros Hoff. unfold verifyLoaderBlobId.
  rewrite (calculateBlobId_eq _ _ _ _ Hoff). cbn [mbind result_bind].
  destruct (Nat.lt_ge_cases (length loader) 88) as [Hshort | Hlong].
  - rewrite parseLoaderStructure_short by done. cbn.
    rewrite bool_decide_eq_false_2; [reflexivity | lia].
  - rewrite parseLoaderStructure_eq by done. cbn [mbind result_bind blobId].
    f_equal. rewrite sha256_hex.
    change ("0x" ++ String.concat "" (map hexByte (take 32 (drop 48 loader))))%string
      with (bytesToHex (take 32 (drop 48 loader))).
    destruct (String.eqb_spec (bytesToHex (take 32 (drop 48 loader)))
                (bytesToHex (digest (take (N.to_nat off) full)))) as [Heq | Hne].
    + symmetry. apply bool_decide_eq_true_2. split; [done |].
      by apply bytesToHex_inj.
    + symmetry. apply bool_decide_eq_false_2. intros [_ Heq].
      apply Hne. by rewrite Heq.
Qed.

(** C1. On a layout with at least one entry, and for every full image
    and every loader byte sequence, [verifyLoaderBlobId] returns a
    boolean and raises nothing; the boolean is [true] exactly when the
    loader has at least 88 bytes and its bytes at offsets 48 to 79 are
    the digest of the code section of the full image, the digest whose
    hex string [calculateBlobId] returns. A loader shorter than 88 bytes
    gives [false]. *)
Theorem verifyLoaderBlobId_iff (full : Uint8Array) (abi : Abi) (loader : Uint8Array) :
  nonEmptyLayout abi ->
  exists parts verdict,
    splitPredicateBytecode full abi = Ok parts
    /\ calculateBlobId sha256 full abi = Ok (bytesToHex (digest (codeSection parts)))
    /\ verifyLoaderBlobId sha256 full abi loader = Ok verdict
    /\ (verdict = true <->
        (88 <= length loader)%nat
        /\ take 32 (drop 48 loader) = digest (codeSection parts))
    /\ ((length loader < 88)%nat -> verdict = false).
Proof.
  intros Hne. destruct (nonEmptyLayout_offset _ Hne) as [off Hoff].
  eexists _, _.
  split; [apply (splitPredicateBytecode_eq _ _ _ Hoff) |].
  split; [rewrite (calculateBlobId_eq _ _ _ _ Hoff), sha256_hex; reflexivity |].
  split; [apply (verifyLoaderBlobId_eq _ _ _ _ Hoff) |].
  cbn [codeSection]. split.
  - apply bool_decide_eq_true.
  - intros Hshort. apply bool_decide_eq_false. lia.
Qed.

(** C2. When [verifyLoaderBlobId] returns [true] on a loader, writing a
    different value into any one of the loader's bytes 48 to 79 makes it
    return [false], the full image and the layout being the same. *)
Theorem verifyLoaderBlobId_tamper (full : Uint8Array) (abi : Abi)
    (loader : Uint8Array) (i : nat) (v : Byte.byte) :
  nonEmptyLayout abi ->
  verifyLoaderBlobId sha256 full abi loader = Ok true ->
  (48 <= i < 80)%nat ->
  loader !! i <> Some v ->
  verifyLoaderBlobId sha256 full abi (<[i := v]> loader) = Ok false.
Proof.
  intros Hne Hok Hi Hv. destruct (nonEmptyLayout_offset _ Hne) as [off Hoff].
  rewrite (verifyLoaderBlobId_eq _ _ _ loader Hoff) in Hok.
  rewrite (verifyLoaderBlobId_eq _ _ _ (<[i := v]> loader) Hoff).
  injection Hok as Hok. apply bool_decide_eq_true in Hok as [Hlen Hid].
  f_equal. apply bool_decide_eq_false. intros [_ Hid'].
  apply Hv. rewrite <- Hid in Hid'.
  assert (take 32 (drop 48 (<[i := v]> loader)) !! (i - 48)%nat
          = take 32 (drop 48 loader) !! (i - 48)%nat) as Hlook
    by (by rewrite Hid').
  rewrite !lookup_take_lt, !lookup_drop in Hlook by lia.
  replace (48 + (i - 48))%nat with i in Hlook by lia.
  rewrite list_lookup_insert_eq in Hlook by lia. done.
Qed.

End VerifyProperties.

Lemma verifyLoaderBlobId_iff_witness :
  exists parts verdict,
    splitPredicateBytecode sampleImage sampleAbi = Ok parts
    /\ calculateBlobId prefixSha256 sampleImage sampleAbi
       = Ok (bytesToHex (prefixDigest (codeSection parts)))
    /\ verifyLoaderBlobId prefixSha256 sampleImage sampleAbi sampleLoader = Ok verdict
    /\ (verdict = true <->
        (88 <= length sampleLoader)%nat
        /\ take 32 (drop 48 sampleLoader) = prefixDigest (codeSection parts))
    /\ ((length sampleLoader < 88)%nat -> verdict = false).
Proof.
  apply (verifyLoaderBlobId_iff prefixSha256 prefixDigest).
  - intros data. reflexivity.
  - exact I.
Defined.

Lemma verifyLoaderBlobId_tamper_witness :
  verifyLoaderBlobId prefixSha256 sampleImage sampleAbi (<[50%nat := xff]> sampleLoader)
  = Ok false.
Proof.
  apply (verifyLoaderBlobId_tamper prefixSha256 prefixDigest).
  - intros data. reflexivity.
  - exact I.
  - vm_compute. reflexivity.
  - lia.
  - vm_compute. discriminate.
Defined.

(** ** The signature normalizer *)

Lemma to_N_byte_of_N (n : N) : Byte.to_N (byte_of_N n) = (n mod 256)%N.
Proof.
  unfold byte_of_N.
  destruct (Byte.of_N (n mod 256)) as [b |] eqn:Hb.
  - by apply Byte.to_of_N.
  - apply Byte.of_N_None_iff in Hb.
    pose proof (N.mod_lt n 256). lia.
Qed.

Lemma normalizeParity_bit (v : N) :
  normalizeParity v = 0%N \/ normalizeParity v = 1%N.
Proof.
  unfold normalizeParity.
  generalize (if (27 <=? v)%N then (v - 27)%N else v). intros n.
  pose proof (N.mod_lt n 2) as Hlt.
  generalize dependent (n mod 2)%N. intros m Hlt. lia.
Qed.

(** The top bit of the rewritten byte is the parity. *)
Lemma setTopBit_top (b : Byte.byte) (parity : N) :
  byte_testbit (setTopBit b parity) 7 = N.testbit parity 0.
Proof.
  unfold byte_testbit, setTopBit. rewrite to_N_byte_of_N.
  change 256%N with (2 ^ 8)%N. rewrite N.mod_pow2_bits_low by lia.
  rewrite N.lor_spec, N.land_spec, N.shiftl_spec_high' by lia.
  change (N.testbit 127 7) with false. by rewrite andb_false_r.
Qed.

(** The seven bits below it are those of the original byte. *)
Lemma setTopBit_low (b : Byte.byte) (parity j : N) :
  (j < 7)%N -> byte_testbit (setTopBit b parity) j = byte_testbit b j.
Proof.
  intros Hj. unfold byte_testbit, setTopBit. rewrite to_N_byte_of_N.
  change 256%N with (2 ^ 8)%N. rewrite N.mod_pow2_bits_low by lia.
  rewrite N.lor_spec, N.land_spec, N.shiftl_spec_low by lia.
  change 127%N with (N.ones 7). rewrite N.ones_spec_low by lia.
  by rewrite andb_true_r, orb_false_r.
Qed.

(** C9. On a signature of exactly 65 bytes [toCompact] returns 64 bytes:
    the first 32 are [r]; the most significant bit of byte 32 is the
    normalised parity of the recovery byte; the seven lower bits of byte 32
    and the bytes 33 to 63 are those of [s]. On an input that does not
    have exactly 65 bytes it fails with [MalformedSignature]. *)
Theorem toCompact_shape (signature : Uint8Array) :
  (length signature = 65%nat ->
   exists compact s0 c32 v,
     toCompact signature = Ok compact
     /\ length compact = 64%nat
     /\ take 32 compact = take 32 signature
     /\ signature !! 32%nat = Some s0
     /\ signature !! 64%nat = Some v
     /\ compact !! 32%nat = Some c32
     /\ byte_testbit c32 7 = (normalizeParity (Byte.to_N v) =? 1)%N
     /\ (forall j, (j < 7)%N -> byte_testbit c32 j = byte_testbit s0 j)
     /\ drop 33 compact = take 31 (drop 33 signature))
  /\ (length signature <> 65%nat ->
      toCompact signature = Throw (Error "MalformedSignature")).
Proof.
  split.
  - intros Hlen. unfold toCompact.
    rewrite Hlen. cbn [Nat.eqb negb].
    rewrite !slice_nonneg by lia.
    change (take (Z.to_nat 32 - Z.to_nat 0) (drop (Z.to_nat 0) signature))
      with (take 32 signature).
    change (take (Z.to_nat 64 - Z.to_nat 32) (drop (Z.to_nat 32) signature))
      with (take 32 (drop 32 signature)).
    destruct (drop 32 signature) as [| s0 rest] eqn:Hdrop.
    { apply (f_equal length) in Hdrop. rewrite length_drop in Hdrop.
      cbn in Hdrop. lia. }
    assert (length rest = 32%nat) as Hrest.
    { apply (f_equal length) in Hdrop. rewrite length_drop in Hdrop.
      cbn in Hdrop. lia. }
    assert (signature !! 32%nat = Some s0) as Hs0.
    { rewrite <- (Nat.add_0_r 32), <- lookup_drop, Hdrop. reflexivity. }
    destruct (lookup_lt_is_Some_2 signature 64) as [v Hv]; [lia |].
    rewrite (nth_lookup_Some _ _ _ _ Hv).
    cbn [take].
    exists (take 32 signature ++ setTopBit s0 (normalizeParity (Byte.to_N v)) :: take 31 rest),
      s0, (setTopBit s0 (normalizeParity (Byte.to_N v))), v.
    assert (length (take 32 signature) = 32%nat) as Htake
      by (rewrite length_take; lia).
    split; [reflexivity |].
    split.
    { rewrite length_app, Htake. cbn. rewrite length_take. lia. }
    split; [by rewrite take_app_length' |].
    split; [done |]. split; [done |].
    split.
    { rewrite lookup_app_r by lia. by rewrite Htake. }
    split.
    { rewrite setTopBit_top.
      by destruct (normalizeParity_bit (Byte.to_N v)) as [-> | ->]. }
    split; [intros j Hj; by apply setTopBit_low |].
    rewrite drop_app_ge by lia. rewrite Htake. cbn.
    replace (drop 33 signature) with rest; [done |].
    change 33%nat with (32 + 1)%nat. rewrite <- drop_drop, Hdrop. reflexivity.
  - intros Hlen. unfold toCompact.
    destruct (Nat.eqb_spec (length signature) 65); [done | reflexivity].
Qed.

Lemma toCompact_shape_witness :
  (exists compact s0 c32 v,
     toCompact sampleSignature = Ok compact
     /\ length compact = 64%nat
     /\ take 32 compact = take 32 sampleSignature
     /\ sampleSignature !! 32%nat = Some s0
     /\ sampleSignature !! 64%nat = Some v
     /\ compact !! 32%nat = Some c32
     /\ byte_testbit c32 7 = (normalizeParity (Byte.to_N v) =? 1)%N
     /\ (forall j, (j < 7)%N -> byte_testbit c32 j = byte_testbit s0 j)
     /\ drop 33 compact = take 31 (drop 33 sampleSignature))
  /\ toCompact sampleImage = Throw (Error "MalformedSignature").
Proof.
  split.
  - apply (proj1 (toCompact_shape sampleSignature)). reflexivity.
  - apply (proj2 (toCompact_shape sampleImage)). simpl. lia.
Defined.

(** ** [hexToBytes] *)

Lemma string_length_app (s t : string) :
  String.length (s ++ t) = (String.length s + String.length t)%nat.
Proof. induction s as [| c s IH]; cbn; [reflexivity | by rewrite IH]. Qed.

Lemma string_app_assoc (s t u : string) : ((s ++ t) ++ u = s ++ (t ++ u))%string.
Proof. induction s as [| c s IH]; cbn; [reflexivity | by rewrite IH]. Qed.

Lemma string_app_empty_r (s : string) : (s ++ "")%string = s.
Proof. induction s as [| c s IH]; cbn; [reflexivity | by rewrite IH]. Qed.

Lemma substring_after_prefix (pre post : string) (m : nat) :
  substring (String.length pre) m (pre ++ post) = substring 0 m post.
Proof. induction pre as [| c pre IH]; cbn; [reflexivity | exact IH]. Qed.

Lemma substring_whole (s : string) : substring 0 (String.length s) s = s.
Proof. induction s as [| c s IH]; cbn; [reflexivity | by rewrite IH]. Qed.

Lemma half_double (n : nat) : (2 * n / 2 = n)%nat.
Proof. rewrite Nat.mul_comm. apply Nat.div_mul. lia. Qed.

Lemma half_succ_succ (n : nat) : (S (S n) / 2 = S (n / 2))%nat.
Proof.
  replace (S (S n)) with (n + 1 * 2)%nat by lia.
  rewrite Nat.div_add by lia. lia.
Qed.

(** The loop of [hexToBytes], started after the pairs of [pre] have been
    stored as [done], fills the rest of the array with the pairs of
    [post]; [fuel] at least the length of [post] is enough. *)
Lemma hexToBytes_loop_decodePairs (fuel : nat) :
  forall (pre post : string) (done : Uint8Array),
    String.length pre = (2 * length done)%nat ->
    (String.length post <= fuel)%nat ->
    hexToBytes_loop fuel (pre ++ post) (2 * length done)
      (done ++ replicate (String.length post / 2) x00)
    = done ++ decodePairs post.
Proof.
  induction fuel as [| fuel IH]; intros pre post done Hpre Hfuel.
  - destruct post; [| cbn in Hfuel; lia]. reflexivity.
  - cbn [hexToBytes_loop]. rewrite string_length_app, <- Hpre.
    destruct post as [| a [| b rest]].
    + cbn [String.length]. rewrite (proj2 (Nat.ltb_ge _ _)) by lia. reflexivity.
    + cbn [String.length]. rewrite (proj2 (Nat.ltb_lt _ _)) by lia.
      change (replicate (1 / 2) x00) with (@nil Byte.byte).
      rewrite Hpre, half_double, list_insert_ge by (rewrite length_app; cbn; lia).
      destruct fuel as [| fuel]; [reflexivity |].
      cbn [hexToBytes_loop]. rewrite string_length_app. cbn [String.length].
      rewrite (proj2 (Nat.ltb_ge _ _)) by lia. reflexivity.
    + cbn [String.length] in *. rewrite (proj2 (Nat.ltb_lt _ _)) by lia.
      unfold String_slice.
      replace (String.length pre + 2 - String.length pre)%nat with 2%nat by lia.
      rewrite substring_after_prefix.
      change (substring 0 2 (String a (String b rest)))
        with (String a (String b (substring 0 0 rest))).
      replace (substring 0 0 rest) with EmptyString by (by destruct rest).
      rewrite half_succ_succ. cbn [replicate decodePairs].
      rewrite Hpre at 2. rewrite half_double.
      rewrite <- (Nat.add_0_r (length done)) at 1.
      rewrite insert_app_r. cbn [insert list_insert].
      set (v := ToUint8 (parseInt16 (String a (String b EmptyString)))).
      specialize (IH (pre ++ String a (String b EmptyString))%string rest (done ++ [v])).
      rewrite string_app_assoc in IH. cbn [append] in IH.
      rewrite string_length_app, length_app in IH. cbn [String.length length] in IH.
      replace (2 * (length done + 1))%nat with (String.length pre + 2)%nat in IH by lia.
      rewrite <- !app_assoc in IH. cbn [app] in IH.
      apply IH; lia.
Qed.

(** [hexToBytes] decodes the pairs of the string without its [0x]. *)
Lemma hexToBytes_decodePairs (hex : string) :
  hexToBytes hex
  = decodePairs (if startsWith hex "0x" then String_slice_from hex 2 else hex).
Proof.
  unfold hexToBytes.
  generalize (if startsWith hex "0x" then String_slice_from hex 2 else hex).
  intros cleanHex.
  apply (hexToBytes_loop_decodePairs (String.length cleanHex) EmptyString cleanHex []);
    [reflexivity | lia].
Qed.

Lemma hexToBytes_prefixed (s : string) :
  hexToBytes (String "0" (String "x" s)) = decodePairs s.
Proof.
  rewrite hexToBytes_decodePairs.
  replace (startsWith (String "0" (String "x" s)) "0x") with true
    by (by destruct s).
  unfold String_slice_from, String_slice. cbn [String.length Nat.sub substring].
  by rewrite Nat.sub_0_r, substring_whole.
Qed.

Lemma decodePairs_hexByte (b : Byte.byte) (rest : string) :
  decodePairs (hexByte b ++ rest) = b :: decodePairs rest.
Proof.
  assert (ToUint8 (parseInt16 (hexByte b)) = b) as Hb by (destruct b; reflexivity).
  destruct (hexByte_two_chars b) as (hi & lo & Heq).
  rewrite Heq in Hb |- *. cbn. by rewrite Hb.
Qed.

Lemma decodePairs_concat_hexByte (bytes : Uint8Array) :
  decodePairs (String.concat "" (map hexByte bytes)) = bytes.
Proof.
  induction bytes as [| b bytes IH]; [reflexivity |].
  cbn [map]. rewrite concat_empty_cons, decodePairs_hexByte. by rewrite IH.
Qed.

Lemma hexByte_not_prefixed (b : Byte.byte) (rest : string) :
  startsWith (hexByte b ++ rest) "0x" = false.
Proof. destruct b; reflexivity. Qed.

(** X1. Decoding what [bytesToHex] wrote gives the bytes back, and so does
    decoding the same digits without the [0x] in front. *)
Theorem hexToBytes_bytesToHex (bytes : Uint8Array) :
  hexToBytes (bytesToHex bytes) = bytes
  /\ hexToBytes (String.concat "" (map hexByte bytes)) = bytes.
Proof.
  split.
  - unfold bytesToHex. cbn [append]. rewrite hexToBytes_prefixed.
    apply decodePairs_concat_hexByte.
  - rewrite hexToBytes_decodePairs.
    replace (startsWith (String.concat "" (map hexByte bytes)) "0x") with false.
    + apply decodePairs_concat_hexByte.
    + destruct bytes as [| b bytes]; [reflexivity |].
      cbn [map]. by rewrite concat_empty_cons, hexByte_not_prefixed.
Qed.

Lemma decodePairs_length (s : string) :
  length (decodePairs s) = (String.length s / 2)%nat
  /\ forall c, length (decodePairs (String c s)) = (S (String.length s) / 2)%nat.
Proof.
  induction s as [| a s [IH IHc]].
  - split; [reflexivity | intros c; reflexivity].
  - split; [apply IHc |].
    intros c. cbn [decodePairs length String.length].
    by rewrite half_succ_succ, IH.
Qed.

(** X2. [hexToBytes] returns an array on every string: one byte for each
    full pair of characters after an optional [0x], that is half the
    length of the rest, rounded down. *)
Theorem hexToBytes_length (hex : string) :
  length (hexToBytes hex)
  = (String.length (if startsWith hex "0x" then String_slice_from hex 2 else hex) / 2)%nat.
Proof.
  rewrite hexToBytes_decodePairs. apply decodePairs_length.
Qed.

Lemma decodePairs_app (s t : string) :
  Nat.Even (String.length s) ->
  decodePairs (s ++ t) = decodePairs s ++ decodePairs t.
Proof.
  intros [k Hk]. revert s Hk.
  induction k as [| k IH]; intros s Hk.
  - destruct s; [reflexivity | cbn in Hk; lia].
  - destruct s as [| a [| b s]]; cbn in Hk; try lia.
    cbn [append decodePairs app]. f_equal. apply IH. lia.
Qed.

(** X3. Decoding distributes over concatenation at a pair boundary: when
    [s] has an even number of characters, the bytes of [0x] followed by
    [s ++ t] are the bytes of [0x s] followed by those of [0x t]. *)
Theorem hexToBytes_app (s t : string) :
  Nat.Even (String.length s) ->
  hexToBytes (String "0" (String "x" (s ++ t)))
  = hexToBytes (String "0" (String "x" s)) ++ hexToBytes (String "0" (String "x" t)).
Proof.
  intros Heven. rewrite !hexToBytes_prefixed. by apply decodePairs_app.
Qed.

Lemma hexToBytes_app_witness :
  hexToBytes "0x0123abcd" = hexToBytes "0x0123" ++ hexToBytes "0xabcd".
Proof.
  apply (hexToBytes_app "0123" "abcd").
  exists 2%nat. reflexivity.
Defined.

(** X4. A last character without a partner is dropped without an error:
    after an even number of characters, one more character changes
    nothing in the result. *)
Theorem hexToBytes_odd_tail (s : string) (c : ascii) :
  Nat.Even (String.length s) ->
  hexToBytes (String "0" (String "x" (s ++ String c EmptyString)))
  = hexToBytes (String "0" (String "x" s)).
Proof.
  intros Heven. rewrite !hexToBytes_prefixed, decodePairs_app by done.
  cbn [decodePairs]. apply app_nil_r.
Qed.

Lemma hexToBytes_odd_tail_witness :
  hexToBytes "0x0123f" = hexToBytes "0x0123".
Proof.
  apply (hexToBytes_odd_tail "0123" "f").
  exists 2%nat. reflexivity.
Defined.

Lemma toUpperCase_app (s t : string) :
  toUpperCase (s ++ t) = (toUpperCase s ++ toUpperCase t)%string.
Proof. induction s as [| c s IH]; cbn; [reflexivity | by rewrite IH]. Qed.

Lemma decodePairs_upper_hexByte (b : Byte.byte) (rest : string) :
  decodePairs (toUpperCase (hexByte b) ++ rest) = b :: decodePairs rest.
Proof.
  assert (ToUint8 (parseInt16 (toUpperCase (hexByte b))) = b) as Hb
    by (destruct b; reflexivity).
  destruct (hexByte_two_chars b) as (hi & lo & Heq).
  rewrite Heq in Hb |- *. cbn in Hb |- *. by rewrite Hb.
Qed.

Lemma decodePairs_upper_concat (bytes : Uint8Array) :
  decodePairs (toUpperCase (String.concat "" (map hexByte bytes))) = bytes.
Proof.
  induction bytes as [| b bytes IH]; [reflexivity |].
  cbn [map]. rewrite concat_empty_cons, toUpperCase_app, decodePairs_upper_hexByte.
  by rewrite IH.
Qed.

(** X5. The digits may be in upper case, the prefix may not: [0x]
    followed by the upper-case digits of [bytes] decodes to [bytes], but
    the whole encoding put in upper case starts with [0X], which is not
    taken off and is decoded as one more byte, a zero in front. *)
Theorem hexToBytes_upper_case (bytes : Uint8Array) :
  hexToBytes (String "0" (String "x" (toUpperCase (String.concat "" (map hexByte bytes)))))
  = bytes
  /\ hexToBytes (toUpperCase (bytesToHex bytes)) = x00 :: bytes.
Proof.
  split.
  - rewrite hexToBytes_prefixed. apply decodePairs_upper_concat.
  - rewrite hexToBytes_decodePairs. unfold bytesToHex.
    cbn [append toUpperCase].
    change (toUpperCase_char "0") with "0"%char.
    change (toUpperCase_char "x") with "X"%char.
    set (digits := toUpperCase (String.concat "" (map hexByte bytes))).
    change (startsWith (String "0" (String "X" digits)) "0x") with false.
    cbn [decodePairs]. f_equal. apply decodePairs_upper_concat.
Qed.

Lemma ToUint8_parseInt16_digit_first (a b : ascii) (da : N) :
  radixDigit 16 a = Some da ->
  ToUint8 (parseInt16 (String a (String b EmptyString)))
  = byte_of_N (match radixDigit 16 b with
               | Some db => 16 * da + db
               | None => da
               end).
Proof.
  destruct a as [[] [] [] [] [] [] [] []]; intros Ha; cbv in Ha;
    try discriminate Ha; injection Ha as <-;
    destruct b as [[] [] [] [] [] [] [] []]; reflexivity.
Qed.

Lemma ToUint8_parseInt16_garbage_first (a b : ascii) :
  radixDigit 16 a = None ->
  isStrWhiteSpaceChar a = false ->
  a <> "+"%char -> a <> "-"%char ->
  ToUint8 (parseInt16 (String a (String b EmptyString))) = x00.
Proof.
  destruct a as [[] [] [] [] [] [] [] []]; intros Ha Hws Hplus Hminus;
    cbv in Ha; try discriminate Ha; cbv in Hws; try discriminate Hws;
    try (exfalso; apply Hplus; reflexivity);
    try (exfalso; apply Hminus; reflexivity);
    reflexivity.
Qed.

(** X6. A malformed pair is not an error. A hex digit followed by a
    character that is not a hex digit is read as that one digit, two hex
    digits as [16 * first + second]; a pair whose first character is not a
    hex digit, white space or a sign is read as 0. *)
Theorem hexToBytes_pair (a b : ascii) :
  (forall da, radixDigit 16 a = Some da ->
     hexToBytes (String "0" (String "x" (String a (String b EmptyString))))
     = [byte_of_N (match radixDigit 16 b with
                   | Some db => 16 * da + db
                   | None => da
                   end)])
  /\ (radixDigit 16 a = None ->
      isStrWhiteSpaceChar a = false ->
      a <> "+"%char -> a <> "-"%char ->
      hexToBytes (String "0" (String "x" (String a (String b EmptyString)))) = [x00]).
Proof.
  rewrite hexToBytes_prefixed. cbn [decodePairs]. split.
  - intros da Ha. by rewrite (ToUint8_parseInt16_digit_first _ _ _ Ha).
  - intros Ha Hws Hplus Hminus.
    by rewrite ToUint8_parseInt16_garbage_first.
Qed.

Lemma hexToBytes_pair_witness :
  hexToBytes "0x7g" = [x07] /\ hexToBytes "0xzz" = [x00].
Proof.
  split.
  - apply (proj1 (hexToBytes_pair "7" "g") 7%N). reflexivity.
  - apply (proj2 (hexToBytes_pair "z" "z")); try reflexivity; discriminate.
Defined.

(** ** [bytesToHex] *)

Lemma concat_hexByte_length (bytes : Uint8Array) :
  String.length (String.concat "" (map hexByte bytes)) = (2 * length bytes)%nat.
Proof.
  induction bytes as [| b bytes IH]; [reflexivity |].
  cbn [map]. rewrite concat_empty_cons, string_length_app, IH.
  destruct (hexByte_two_chars b) as (hi & lo & ->). cbn. lia.
Qed.

Lemma concat_hexByte_digits (bytes : Uint8Array) :
  Forall (fun c => exists d, (d < 16)%N /\ c = hexDigit d)
    (list_ascii_of_string (String.concat "" (map hexByte bytes))).
Proof.
  induction bytes as [| b bytes IH]; [constructor |].
  cbn [map]. rewrite concat_empty_cons, hexByte_digits.
  cbn [append list_ascii_of_string].
  pose proof (Byte.to_N_bounded b) as Hb.
  constructor; [| constructor; [| exact IH]].
  - exists (Byte.to_N b / 16)%N. split; [| reflexivity].
    apply N.Div0.div_lt_upper_bound. lia.
  - exists (Byte.to_N b mod 16)%N. split; [| reflexivity].
    apply N.mod_lt. lia.
Qed.

(** X7. The string [bytesToHex] returns is [0x] followed by two characters
    for each byte, hence [2 + 2 * length] characters (66 for a 32-byte
    identifier), and every character after the prefix is one of the
    sixteen lower-case hex digits. *)
Theorem bytesToHex_shape (bytes : Uint8Array) :
  String.length (bytesToHex bytes) = (2 + 2 * length bytes)%nat
  /\ startsWith (bytesToHex bytes) "0x" = true
  /\ Forall (fun c => exists d, (d < 16)%N /\ c = hexDigit d)
       (list_ascii_of_string (String_slice_from (bytesToHex bytes) 2)).
Proof.
  unfold bytesToHex. cbn [append].
  set (digits := String.concat "" (map hexByte bytes)).
  split; [| split].
  - cbn [String.length]. unfold digits. rewrite concat_hexByte_length. lia.
  - by destruct digits.
  - unfold String_slice_from, String_slice.
    cbn [String.length Nat.sub substring].
    rewrite Nat.sub_0_r, substring_whole. apply concat_hexByte_digits.
Qed.

(** ** More on [parseLoaderStructure] *)

(** X8. The four parts of a loader of at least 88 bytes tile it: the
    [instructions] have 48 bytes, the [blobId] 32, and the loader is the
    instructions, the identifier, the eight length bytes and the
    [configurables] one after the other. *)
Theorem parseLoaderStructure_tiles (loader : Uint8Array) :
  (88 <= length loader)%nat ->
  exists components,
    parseLoaderStructure loader = Ok (Some components)
    /\ length (instructions components) = 48%nat
    /\ length (blobId components) = 32%nat
    /\ loader = instructions components ++ blobId components
                ++ take 8 (drop 80 loader) ++ loaderConfigurables components.
Proof.
  intros Hlen. eexists. split; [by apply parseLoaderStructure_eq |].
  cbn [instructions blobId loaderConfigurables].
  split; [rewrite length_take; lia |].
  split; [rewrite length_take, length_drop; lia |].
  rewrite <- (take_drop 48 loader) at 1. f_equal.
  rewrite <- (take_drop 32 (drop 48 loader)) at 1. f_equal.
  rewrite drop_drop. change (48 + 32)%nat with 80%nat.
  rewrite <- (take_drop 8 (drop 80 loader)) at 1. f_equal.
  by rewrite drop_drop.
Qed.

Lemma parseLoaderStructure_tiles_witness :
  exists components,
    parseLoaderStructure sampleLoader = Ok (Some components)
    /\ length (instructions components) = 48%nat
    /\ length (blobId components) = 32%nat
    /\ sampleLoader = instructions components ++ blobId components
                      ++ take 8 (drop 80 sampleLoader) ++ loaderConfigurables components.
Proof.
  apply (parseLoaderStructure_tiles sampleLoader).
  simpl. lia.
Defined.

(** X9. Parsing undoes the assembly of a loader: from 48 instruction
    bytes, a 32-byte identifier, 8 length bytes and any configurables put
    one after the other, [parseLoaderStructure] returns exactly these
    instructions, this identifier, the big-endian value of the length
    bytes and these configurables. *)
Theorem parseLoaderStructure_assembled (instr id lengthBytes config : Uint8Array) :
  length instr = 48%nat -> length id = 32%nat -> length lengthBytes = 8%nat ->
  parseLoaderStructure (instr ++ id ++ lengthBytes ++ config)
  = Ok (Some (mkLoaderComponents instr id (readBigUInt64BE lengthBytes) config)).
Proof.
  intros Hinstr Hid Hlen.
  rewrite parseLoaderStructure_eq by (rewrite !length_app; lia).
  do 2 f_equal.
  assert (drop 48 (instr ++ id ++ lengthBytes ++ config) = id ++ lengthBytes ++ config)
    as H48 by (by apply drop_app_length').
  assert (drop 80 (instr ++ id ++ lengthBytes ++ config) = lengthBytes ++ config)
    as H80.
  { change 80%nat with (48 + 32)%nat. rewrite <- drop_drop, H48.
    by apply drop_app_length'. }
  assert (drop 88 (instr ++ id ++ lengthBytes ++ config) = config) as H88.
  { change 88%nat with (80 + 8)%nat. rewrite <- drop_drop, H80.
    by apply drop_app_length'. }
  rewrite H48, H80, H88.
  rewrite !take_app_length' by done.
  destruct (list_of_length_8 lengthBytes Hlen)
    as (b0 & b1 & b2 & b3 & b4 & b5 & b6 & b7 & ->).
  by rewrite readBigUInt64BE_8.
Qed.

Lemma parseLoaderStructure_assembled_witness :
  parseLoaderStructure
    (repeat x1a 48 ++ repeat xff 32 ++ [x00; x00; x00; x00; x00; x00; x01; x04] ++ [x09])
  = Ok (Some (mkLoaderComponents (repeat x1a 48) (repeat xff 32)
                (readBigUInt64BE [x00; x00; x00; x00; x00; x00; x01; x04]) [x09])).
Proof.
  apply (parseLoaderStructure_assembled (repeat x1a 48) (repeat xff 32)
           [x00; x00; x00; x00; x00; x00; x01; x04] [x09]); reflexivity.
Defined.

Lemma BigInt_of_byte_inj (a b : Byte.byte) : BigInt_of_byte a = BigInt_of_byte b -> a = b.
Proof.
  unfold BigInt_of_byte. intros Heq. apply N2Z.inj in Heq.
  pose proof (Byte.of_to_N a) as Ha. rewrite Heq, Byte.of_to_N in Ha. congruence.
Qed.

(** One step of the big-endian read can be undone. *)
Lemma horner_step_inj (acc acc' : Z) (b b' : Byte.byte) :
  acc * 256 + BigInt_of_byte b = acc' * 256 + BigInt_of_byte b' ->
  acc = acc' /\ b = b'.
Proof.
  intros Heq.
  pose proof (BigInt_of_byte_range b). pose proof (BigInt_of_byte_range b').
  assert (acc = acc') as -> by lia.
  split; [reflexivity | apply BigInt_of_byte_inj; lia].
Qed.

Lemma bigEndianSum_8_inj (a0 a1 a2 a3 a4 a5 a6 a7 b0 b1 b2 b3 b4 b5 b6 b7 : Byte.byte) :
  bigEndianSum [a0; a1; a2; a3; a4; a5; a6; a7]
  = bigEndianSum [b0; b1; b2; b3; b4; b5; b6; b7] ->
  [a0; a1; a2; a3; a4; a5; a6; a7] = [b0; b1; b2; b3; b4; b5; b6; b7].
Proof.
  rewrite <- !readBigUInt64BE_8. unfold readBigUInt64BE. cbn [fold_left].
  rewrite !lor_shiftl_byte. intros Heq.
  repeat (apply horner_step_inj in Heq as [Heq <-]).
  reflexivity.
Qed.

(** X10. The length field is decoded without loss: two loaders of at
    least 88 bytes whose [sectionLength] is the same have the same bytes
    at offsets 80 to 87. *)
Theorem sectionLength_inj (loader1 loader2 : Uint8Array)
    (components1 components2 : LoaderComponents) :
  parseLoaderStructure loader1 = Ok (Some components1) ->
  parseLoaderStructure loader2 = Ok (Some components2) ->
  sectionLength components1 = sectionLength components2 ->
  take 8 (drop 80 loader1) = take 8 (drop 80 loader2).
Proof.
  intros Hp1 Hp2 Heq.
  destruct (Nat.lt_ge_cases (length loader1) 88) as [Hs1 | Hl1];
    [rewrite parseLoaderStructure_short in Hp1 by done; discriminate |].
  destruct (Nat.lt_ge_cases (length loader2) 88) as [Hs2 | Hl2];
    [rewrite parseLoaderStructure_short in Hp2 by done; discriminate |].
  rewrite parseLoaderStructure_eq in Hp1, Hp2 by done.
  injection Hp1 as <-. injection Hp2 as <-. cbn [sectionLength] in Heq.
  destruct (list_of_length_8 (take 8 (drop 80 loader1)))
    as (a0 & a1 & a2 & a3 & a4 & a5 & a6 & a7 & H1);
    [rewrite length_take, length_drop; lia |].
  destruct (list_of_length_8 (take 8 (drop 80 loader2)))
    as (b0 & b1 & b2 & b3 & b4 & b5 & b6 & b7 & H2);
    [rewrite length_take, length_drop; lia |].
  rewrite H1, H2 in Heq |- *. by apply bigEndianSum_8_inj.
Qed.

Lemma sectionLength_inj_witness :
  take 8 (drop 80 sampleLoader) = take 8 (drop 80 (sampleLoader ++ [xff])).
Proof.
  eapply (sectionLength_inj sampleLoader (sampleLoader ++ [xff])).
  - vm_compute. reflexivity.
  - vm_compute. reflexivity.
  - reflexivity.
Defined.

(** ** How the functions compose *)

Section Composition.

Variable sha256 : Uint8Array -> string.

(** X11. [verifyLoaderBlobId] is the check the tests also make by hand:
    it returns [true] exactly when [calculateBlobId] returns an identifier,
    [parseLoaderStructure] returns components, and [bytesToHex] of their
    [blobId] is that identifier. This holds for any hash function. *)
Theorem verifyLoaderBlobId_manual_check (full : Uint8Array) (abi : Abi)
    (loader : Uint8Array) :
  verifyLoaderBlobId sha256 full abi loader = Ok true
  <-> exists id components,
        calculateBlobId sha256 full abi = Ok id
        /\ parseLoaderStructure loader = Ok (Some components)
        /\ bytesToHex (blobId components) = id.
Proof.
  unfold verifyLoaderBlobId.
  destruct (calculateBlobId sha256 full abi) as [id | e]; cbn [mbind result_bind].
  - destruct (parseLoaderStructure loader) as [[components |] | e];
      cbn [mbind result_bind].
    + change ("0x" ++ String.concat "" (map hexByte (blobId components)))%string
        with (bytesToHex (blobId components)).
      destruct (String.eqb_spec (bytesToHex (blobId components)) id) as [Heq | Hne].
      * split; [eauto | reflexivity].
      * split; [discriminate |].
        intros (id' & c' & [= <-] & [= <-] & Heq). contradiction.
    + split; [discriminate | intros (? & ? & _ & ? & _); discriminate].
    + split; [discriminate | intros (? & ? & _ & ? & _); discriminate].
  - split; [discriminate | intros (? & ? & ? & _); discriminate].
Qed.

(** X12. An error of [getConfigurablesSectionOffset] comes out unchanged of
    [splitPredicateBytecode], of [calculateBlobId] and of
    [verifyLoaderBlobId], whatever the image and the loader: on a layout
    without entries the verifier raises, also for a loader too short to
    parse, for which it would otherwise answer [false]. *)
Theorem layout_error_propagates (abi : Abi) (e : exn)
    (full loader : Uint8Array) :
  getConfigurablesSectionOffset abi = Throw e ->
  splitPredicateBytecode full abi = Throw e
  /\ calculateBlobId sha256 full abi = Throw e
  /\ verifyLoaderBlobId sha256 full abi loader = Throw e.
Proof.
  intros He.
  assert (splitPredicateBytecode full abi = Throw e) as Hsplit
    by (unfold splitPredicateBytecode; by rewrite He).
  assert (calculateBlobId sha256 full abi = Throw e) as Hcalc
    by (unfold calculateBlobId; by rewrite Hsplit).
  repeat split; try done.
  unfold verifyLoaderBlobId. by rewrite Hcalc.
Qed.

(** X13. Of the loader, [verifyLoaderBlobId] looks at the length and at
    the bytes 48 to 79 only: two loaders of at least 88 bytes with the same
    bytes there get the same answer, whatever their instructions, length
    field and configurables. *)
Theorem verifyLoaderBlobId_only_blobId (full : Uint8Array) (abi : Abi)
    (loader1 loader2 : Uint8Array) :
  (88 <= length loader1)%nat -> (88 <= length loader2)%nat ->
  take 32 (drop 48 loader1) = take 32 (drop 48 loader2) ->
  verifyLoaderBlobId sha256 full abi loader1
  = verifyLoaderBlobId sha256 full abi loader2.
Proof.
  intros Hl1 Hl2 Hid. unfold verifyLoaderBlobId.
  destruct (calculateBlobId sha256 full abi) as [id | e]; [| reflexivity].
  cbn [mbind result_bind].
  rewrite !parseLoaderStructure_eq by done. cbn [mbind result_bind blobId].
  by rewrite Hid.
Qed.

(** X14. Of the full image, [verifyLoaderBlobId] looks at the bytes below
    the minimum offset of the layout only: two images that agree there get
    the same answer for every loader. *)
Theorem verifyLoaderBlobId_only_code (abi : Abi) (off : N)
    (image1 image2 loader : Uint8Array) :
  getConfigurablesSectionOffset abi = Ok off ->
  (forall i : nat, (N.of_nat i < off)%N -> image1 !! i = image2 !! i) ->
  verifyLoaderBlobId sha256 image1 abi loader
  = verifyLoaderBlobId sha256 image2 abi loader.
Proof.
  intros Hoff Hsame. unfold verifyLoaderBlobId.
  rewrite !(calculateBlobId_eq _ _ _ _ Hoff).
  replace (take (N.to_nat off) image2) with (take (N.to_nat off) image1);
    [reflexivity |].
  apply list_eq. intros i.
  destruct (Nat.lt_ge_cases i (N.to_nat off)) as [Hlt | Hge].
  - rewrite !lookup_take_lt by done. apply Hsame. lia.
  - by rewrite !lookup_take_ge.
Qed.

(** X16. The identifier of an image is the identifier of its code section
    taken alone: hashing is applied to the code section, and splitting the
    code section again at the same offset leaves it whole. *)
Theorem calculateBlobId_of_codeSection (full : Uint8Array) (abi : Abi)
    (parts : SplitBytecode) :
  splitPredicateBytecode full abi = Ok parts ->
  calculateBlobId sha256 full abi = Ok (sha256 (codeSection parts))
  /\ calculateBlobId sha256 (codeSection parts) abi = Ok (sha256 (codeSection parts)).
Proof.
  intros Hsplit.
  destruct (getConfigurablesSectionOffset abi) as [off | e] eqn:Hoff.
  - rewrite (splitPredicateBytecode_eq _ _ _ Hoff) in Hsplit.
    injection Hsplit as <-. cbn [codeSection].
    rewrite !(calculateBlobId_eq _ _ _ _ Hoff).
    rewrite take_take, Nat.min_id. done.
  - unfold splitPredicateBytecode in Hsplit. rewrite Hoff in Hsplit. discriminate.
Qed.

End Composition.

Lemma layout_error_propagates_witness :
  splitPredicateBytecode sampleImage (mkAbi (Some []))
  = Throw (Error "No configurables found in ABI")
  /\ calculateBlobId prefixSha256 sampleImage (mkAbi (Some []))
     = Throw (Error "No configurables found in ABI")
  /\ verifyLoaderBlobId prefixSha256 sampleImage (mkAbi (Some [])) [x00]
     = Throw (Error "No configurables found in ABI").
Proof.
  apply (layout_error_propagates prefixSha256 (mkAbi (Some []))).
  reflexivity.
Defined.

Lemma verifyLoaderBlobId_only_blobId_witness :
  verifyLoaderBlobId prefixSha256 sampleImage sampleAbi sampleLoader
  = verifyLoaderBlobId prefixSha256 sampleImage sampleAbi
      (repeat x00 48 ++ prefixDigest [x01; x23; x45; x67] ++ repeat xff 8).
Proof.
  apply (verifyLoaderBlobId_only_blobId prefixSha256).
  - simpl. lia.
  - simpl. lia.
  - reflexivity.
Defined.

Lemma verifyLoaderBlobId_only_code_witness :
  verifyLoaderBlobId prefixSha256 sampleImage sampleAbi sampleLoader
  = verifyLoaderBlobId prefixSha256 [x01; x23; x45; x67; xff] sampleAbi sampleLoader.
Proof.
  apply (verifyLoaderBlobId_only_code prefixSha256 sampleAbi 4).
  - reflexivity.
  - intros i Hi.
    destruct i as [| [| [| [| i]]]]; try reflexivity. lia.
Defined.

Lemma calculateBlobId_of_codeSection_witness :
  calculateBlobId prefixSha256 sampleImage sampleAbi
  = Ok (prefixSha256 [x01; x23; x45; x67])
  /\ calculateBlobId prefixSha256 [x01; x23; x45; x67] sampleAbi
     = Ok (prefixSha256 [x01; x23; x45; x67]).
Proof.
  apply (calculateBlobId_of_codeSection prefixSha256 sampleImage sampleAbi
           (mkSplit [x01; x23; x45; x67] [x89; xab; xcd; xef])).
  reflexivity.
Defined.

(** ** More on [getConfigurablesSectionOffset] *)

(** X15. The result depends on the offsets of the entries only, not on
    their order or their names: two layouts whose offsets are the same up
    to reordering give the same result, be it an offset or the error. *)
Theorem getConfigurablesSectionOffset_reordered (entries entries' : list Configurable) :
  map offset entries ≡ₚ map offset entries' ->
  getConfigurablesSectionOffset (mkAbi (Some entries))
  = getConfigurablesSectionOffset (mkAbi (Some entries')).
Proof.
  intros Hperm. unfold getConfigurablesSectionOffset. cbn [configurables].
  destruct entries as [| c cs], entries' as [| c' cs']; cbn [map] in Hperm.
  - reflexivity.
  - by apply Permutation_nil_cons in Hperm.
  - symmetry in Hperm. by apply Permutation_nil_cons in Hperm.
  - f_equal.
    pose proof (Math_min_attained (map offset cs) (offset c)) as Hin.
    pose proof (Math_min_attained (map offset cs') (offset c')) as Hin'.
    pose proof (Math_min_lower_bound (map offset cs) (offset c)) as Hlow.
    pose proof (Math_min_lower_bound (map offset cs') (offset c')) as Hlow'.
    rewrite List.Forall_forall in Hlow, Hlow'.
    apply (Permutation_in _ Hperm) in Hin.
    apply (Permutation_in _ (Permutation_sym Hperm)) in Hin'.
    specialize (Hlow _ Hin'). specialize (Hlow' _ Hin). lia.
Qed.

Lemma getConfigurablesSectionOffset_reordered_witness :
  getConfigurablesSectionOffset sampleAbi
  = getConfigurablesSectionOffset
      (mkAbi (Some [mkConfigurable "B" 4; mkConfigurable "A" 6])).
Proof.
  apply (getConfigurablesSectionOffset_reordered
           [mkConfigurable "OWNER_ADDRESS" 6; mkConfigurable "LIMIT" 4]
           [mkConfigurable "B" 4; mkConfigurable "A" 6]).
  simpl. apply perm_swap.
Defined.

(** ** Encoding what was decoded *)

Lemma below_16_cases (d : N) :
  (d < 16)%N ->
  d = 0%N \/ d = 1%N \/ d = 2%N \/ d = 3%N \/ d = 4%N \/ d = 5%N \/ d = 6%N
  \/ d = 7%N \/ d = 8%N \/ d = 9%N \/ d = 10%N \/ d = 11%N \/ d = 12%N
  \/ d = 13%N \/ d = 14%N \/ d = 15%N.
Proof. lia. Qed.

Ltac split_digit H :=
  apply below_16_cases in H;
  repeat (destruct H as [H | H]; [subst |]); subst.

Lemma hexByte_of_digit_pair (d1 d2 : N) :
  (d1 < 16)%N -> (d2 < 16)%N ->
  hexByte (ToUint8 (parseInt16 (String (hexDigit d1) (String (hexDigit d2) EmptyString))))
  = String (hexDigit d1) (String (hexDigit d2) EmptyString).
Proof.
  intros H1 H2. split_digit H1; split_digit H2; reflexivity.
Qed.

Lemma concat_hexByte_decodePairs (k : nat) :
  forall digits : string,
    String.length digits = (2 * k)%nat ->
    Forall (fun c => exists d, (d < 16)%N /\ c = hexDigit d)
      (list_ascii_of_string digits) ->
    String.concat "" (map hexByte (decodePairs digits)) = digits.
Proof.
  induction k as [| k IH]; intros digits Hlen Hdigits.
  - destruct digits; [reflexivity | cbn in Hlen; lia].
  - destruct digits as [| a [| b rest]]; cbn in Hlen; try lia.
    cbn [list_ascii_of_string] in Hdigits.
    inversion Hdigits as [| ? ? (d1 & Hd1 & ->) Htail]; subst.
    inversion Htail as [| ? ? (d2 & Hd2 & ->) Hrest]; subst.
    cbn [decodePairs map]. rewrite concat_empty_cons.
    rewrite hexByte_of_digit_pair by done. cbn [append].
    rewrite IH; [reflexivity | lia | done].
Qed.

(** X17. Encoding what was decoded gives the string back when the string
    is well formed: for [0x] followed by an even number of lower-case hex
    digits, [bytesToHex] of [hexToBytes] is the string itself. *)
Theorem bytesToHex_hexToBytes (digits : string) :
  Nat.Even (String.length digits) ->
  Forall (fun c => exists d, (d < 16)%N /\ c = hexDigit d)
    (list_ascii_of_string digits) ->
  bytesToHex (hexToBytes (String "0" (String "x" digits)))
  = String "0" (String "x" digits).
Proof.
  intros [k Hk] Hdigits. rewrite hexToBytes_prefixed. unfold bytesToHex.
  cbn [append]. by rewrite (concat_hexByte_decodePairs k).
Qed.

Lemma bytesToHex_hexToBytes_witness :
  bytesToHex (hexToBytes "0x01ab") = "0x01ab"%string.
Proof.
  apply (bytesToHex_hexToBytes "01ab").
  - exists 2%nat. reflexivity.
  - repeat constructor.
    + exists 0%N. split; [lia | reflexivity].
    + exists 1%N. split; [lia | reflexivity].
    + exists 10%N. split; [lia | reflexivity].
    + exists 11%N. split; [lia | reflexivity].
Defined.

Section VerifyWithHexToBytes.

Variable sha256 : Uint8Array -> string.
Variable digest : Uint8Array -> Uint8Array.
Hypothesis sha256_hex : forall data, sha256 data = bytesToHex (digest data).

(** X18. With [sha256] returning the hex string of a digest, the verifier
    compares bytes: on a layout with entries it returns [true] exactly when
    the loader has at least 88 bytes and its bytes 48 to 79 are
    [hexToBytes] of the identifier [calculateBlobId] returns. *)
Theorem verifyLoaderBlobId_hexToBytes (full : Uint8Array) (abi : Abi)
    (loader : Uint8Array) :
  nonEmptyLayout abi ->
  exists id,
    calculateBlobId sha256 full abi = Ok id
    /\ (verifyLoaderBlobId sha256 full abi loader = Ok true
        <-> (88 <= length loader)%nat
            /\ take 32 (drop 48 loader) = hexToBytes id).
Proof.
  intros Hne. destruct (nonEmptyLayout_offset _ Hne) as [off Hoff].
  eexists. split; [apply (calculateBlobId_eq _ _ _ _ Hoff) |].
  rewrite (verifyLoaderBlobId_eq sha256 digest sha256_hex _ _ _ _ Hoff).
  rewrite sha256_hex. unfold bytesToHex at 1. cbn [append].
  rewrite hexToBytes_prefixed, decodePairs_concat_hexByte.
  split.
  - intros [= Hdec]. by apply bool_decide_eq_true in Hdec.
  - intros Hdec. f_equal. by apply bool_decide_eq_true.
Qed.

End VerifyWithHexToBytes.

Lemma verifyLoaderBlobId_hexToBytes_witness :
  exists id,
    calculateBlobId prefixSha256 sampleImage sampleAbi = Ok id
    /\ (verifyLoaderBlobId prefixSha256 sampleImage sampleAbi sampleLoader = Ok true
        <-> (88 <= length sampleLoader)%nat
            /\ take 32 (drop 48 sampleLoader) = hexToBytes id).
Proof.
  apply (verifyLoaderBlobId_hexToBytes prefixSha256 prefixDigest).
  - intros data. reflexivity.
  - exact I.
Defined.
